(** * The reachability-analysis query tool (tools/reachability-analysis/main.py)

    A shallow embedding of [main]: the prompt / dispatch loop that reads
    lines from standard input and queries a [ReachabilityGraph].

    - Python [str] values are lists of Unicode code points.
    - Standard input is the list of the lines still to be read; [input()]
      on an exhausted stream raises [EOFError], which [main] does not catch.
    - Everything observable (prompts, prints, calls on the graph object) is
      recorded in a trace of events.
    - The class [ReachabilityGraph] lives in [lib.core]; it is an interface
      here, and its methods thread the object's state explicitly. *)

From Stdlib Require Import List NArith Bool String Ascii Arith Lia.
Import ListNotations.

(** ** Python strings *)

Module PyStr.

Definition char := N.
Definition str := list char.

(** A string literal of the source, as code points. *)
Definition lit (s : string) : str :=
  List.map N_of_ascii (list_ascii_of_string s).

(** The characters removed by [str.strip()] without argument: those for
    which CPython's [Py_UNICODE_ISSPACE] holds. *)
Definition isspace (c : char) : bool :=
  ((9 <=? c) && (c <=? 13)          (* \t \n \v \f \r *)
   || (28 <=? c) && (c <=? 32)      (* FS GS RS US and the space *)
   || (c =? 133) || (c =? 160)      (* NEL, no-break space *)
   || (c =? 5760)                   (* U+1680 *)
   || (8192 <=? c) && (c <=? 8202)  (* U+2000 .. U+200A *)
   || (c =? 8232) || (c =? 8233)    (* U+2028, U+2029 *)
   || (c =? 8239) || (c =? 8287)    (* U+202F, U+205F *)
   || (c =? 12288))%N.              (* U+3000 *)

(** [a == b] on strings. *)
Fixpoint eqb (a b : str) : bool :=
  match a, b with
  | [], [] => true
  | x :: a', y :: b' => (x =? y)%N && eqb a' b'
  | _, _ => false
  end.

(** [s.lstrip()]: skip the leading whitespace. *)
Fixpoint lstrip (s : str) : str :=
  match s with
  | [] => []
  | c :: s' => if isspace c then lstrip s' else s
  end.

(** [s.rstrip()]: the same scan, run from the last character backwards. *)
Definition rstrip (s : str) : str := rev (lstrip (rev s)).

(** [s.strip()]: the left index is advanced first, then the right one. *)
Definition strip (s : str) : str := rstrip (lstrip s).

(** Truth value of a string: only the empty string is falsy. *)
Definition truthy (s : str) : bool :=
  match s with [] => false | _ :: _ => true end.

(** [s.startswith(prefix)]. *)
Fixpoint startswith (s prefix : str) : bool :=
  match prefix, s with
  | [], _ => true
  | _ :: _, [] => false
  | p :: prefix', c :: s' => (c =? p)%N && startswith s' prefix'
  end.

(** The slice [s[n:]]; past the end it is the empty string. *)
Definition slice_from (n : nat) (s : str) : str := skipn n s.

End PyStr.

Import PyStr.

(** ** Constants of the module *)

Definition PROMPT_MSG : str :=
  lit "Enter a node's name or 's {search term}' to search for one: ".

Definition LOADING_MSG : str :=
  lit "Loading graph. This might take a couple of minutes".

(** The f-string [f"Cannot find a node named '{input_str}'"]. *)
Definition not_found_msg (input_str : str) : str :=
  lit "Cannot find a node named '" ++ input_str ++ lit "'".

(** ** The graph object *)

(** Modelled from the spec: the class [ReachabilityGraph] of [lib.core] is
    imported by [main.py] but its source is not part of this development.
    The interface keeps what [main] uses: the constructor, [load],
    [list_nodes] (which prints the matching identifiers itself),
    [get_node] (which returns a node or raises [KeyError], here [None]) and
    the node's [repr].  Every method receives the object's state and
    returns the state it leaves behind, as a Python method may mutate
    [self]. *)
Record GraphStore : Type := {
  graph : Type;
  node : Type;
  new_graph : graph;
  load : str -> graph -> graph;
  list_nodes : str -> graph -> graph * list str;
  get_node : str -> graph -> graph * option node;
  repr : node -> str
}.

(** ** Events, commands and the loop *)

Inductive event : Type :=
| Prompt                                      (* input(PROMPT_MSG) *)
| Print (line : str)                          (* print(line) *)
| CallLoad (path : str)                       (* graph.load(path) *)
| CallListNodes (term : str) (printed : list str)
                                              (* graph.list_nodes(term) and what it printed *)
| CallGetNode (name : str).                   (* graph.get_node(name) *)

(** What a line asks for; the loop has one branch for each. *)
Inductive Command : Type :=
| Empty
| Exit
| Search (term : str)
| Lookup (name : str).

(** Where the loop stands after a line has been handled. *)
Inductive status : Type := Prompting | Terminated.

(** How [main] ends: the [while] test failed, or [input()] raised. *)
Inductive outcome : Type := Exited | EOFError.

(** The tests of the loop, in the order the code makes them. *)
Definition classify (input_str : str) : Command :=
  if eqb input_str (lit "x") then Exit
  else if negb (truthy (strip input_str)) then Empty
  else if startswith input_str (lit "s ") then Search (slice_from 2 input_str)
  else Lookup input_str.

(** What one turn of the loop leaves behind. *)
Record turn (G : Type) : Type := Turn {
  graph_after : G;
  events : list event;
  next : status
}.

Arguments Turn {G}.
Arguments graph_after {G}.
Arguments events {G}.
Arguments next {G}.

(** What a whole session leaves behind; [iterations] counts the executions
    of the loop body. *)
Record session (G : Type) : Type := Session {
  final_graph : G;
  trace : list event;
  iterations : nat;
  result : outcome
}.

Arguments Session {G}.
Arguments final_graph {G}.
Arguments trace {G}.
Arguments iterations {G}.
Arguments result {G}.

Section QueryLoop.

Variable gs : GraphStore.

(** One turn on the line just read: the [while] test and, when it passes,
    the body up to (not including) the next [input(PROMPT_MSG)]. *)
Definition iteration (g : graph gs) (input_str : str) : turn (graph gs) :=
  if eqb input_str (lit "x") then
    Turn g [] Terminated
  else if negb (truthy (strip input_str)) then
    Turn g [] Prompting
  else if startswith input_str (lit "s ") then
    let (g', printed) := list_nodes gs (slice_from 2 input_str) g in
    Turn g' [CallListNodes (slice_from 2 input_str) printed] Prompting
  else
    let (g', found) := get_node gs input_str g in
    match found with
    | Some n => Turn g' [CallGetNode input_str; Print (repr gs n)] Prompting
    | None =>
        Turn g' [CallGetNode input_str; Print (not_found_msg input_str)]
             Prompting
    end.

(** The branch taken for a command. *)
Definition dispatch (c : Command) (g : graph gs) : turn (graph gs) :=
  match c with
  | Exit => Turn g [] Terminated
  | Empty => Turn g [] Prompting
  | Search term =>
      let (g', printed) := list_nodes gs term g in
      Turn g' [CallListNodes term printed] Prompting
  | Lookup name =>
      let (g', found) := get_node gs name g in
      match found with
      | Some n => Turn g' [CallGetNode name; Print (repr gs n)] Prompting
      | None => Turn g' [CallGetNode name; Print (not_found_msg name)]
                     Prompting
      end
  end.

(** The loop of [main], over the lines standard input still holds.  Each
    line is obtained by [input(PROMPT_MSG)], which writes the prompt
    first and raises [EOFError] when no line is left. *)
Fixpoint query_loop (g : graph gs) (stdin : list str) : session (graph gs) :=
  match stdin with
  | [] => Session g [Prompt] 0 EOFError
  | input_str :: rest =>
      let t := iteration g input_str in
      match next t with
      | Terminated => Session (graph_after t) (Prompt :: events t) 0 Exited
      | Prompting =>
          let r := query_loop (graph_after t) rest in
          Session (final_graph r) (Prompt :: events t ++ trace r)
                  (S (iterations r)) (result r)
      end
  end.

(** [main], after [parse_args] has produced [args.input]. *)
Definition main (input_path : str) (stdin : list str) : session (graph gs) :=
  let g := load gs input_path (new_graph gs) in
  let r := query_loop g stdin in
  Session (final_graph r)
          (Print LOADING_MSG :: CallLoad input_path :: trace r)
          (iterations r) (result r).

End QueryLoop.

(** The text a trace puts on standard output, piece by piece.  The prompt
    is counted with it, as the documentation of [input()] has it; when
    standard input is a terminal read without [readline], CPython shows
    the prompt on standard error instead. *)
Definition stdout_of (e : event) : list str :=
  match e with
  | Prompt => [PROMPT_MSG]
  | Print line => [line]
  | CallLoad _ => []
  | CallListNodes _ printed => printed
  | CallGetNode _ => []
  end.

Definition stdout (tr : list event) : list str := flat_map stdout_of tr.

Definition is_load (e : event) : bool :=
  match e with CallLoad _ => true | _ => false end.

Definition is_prompt (e : event) : bool :=
  match e with Prompt => true | _ => false end.

Definition is_search (e : event) : bool :=
  match e with CallListNodes _ _ => true | _ => false end.

Definition is_lookup (e : event) : bool :=
  match e with CallGetNode _ => true | _ => false end.

(** Calls on the graph object. *)
Definition is_call (e : event) : bool :=
  is_load e || is_search e || is_lookup e.

Definition count (p : event -> bool) (tr : list event) : nat :=
  List.length (filter p tr).

(** The control flow of one turn as a relation: one rule for each way
    through the [while] test and the two [if]s of the body, guarded by the
    tests passed and failed on the way. *)
Inductive branch : str -> Command -> Prop :=
| branch_exit :
    branch (lit "x") Exit
| branch_empty input_str :
    input_str <> lit "x" ->
    strip input_str = [] ->
    branch input_str Empty
| branch_search input_str :
    input_str <> lit "x" ->
    strip input_str <> [] ->
    startswith input_str (lit "s ") = true ->
    branch input_str (Search (slice_from 2 input_str))
| branch_lookup input_str :
    input_str <> lit "x" ->
    strip input_str <> [] ->
    startswith input_str (lit "s ") = false ->
    branch input_str (Lookup input_str).

(** ** Contracts on the graph object *)

(** Modelled from the spec: the collaborator contract of the graph object,
    whose class [ReachabilityGraph] of [lib.core] is not part of this
    development.  In that contract [load] is the one operation that
    initialises the graph state; [search] yields the identifiers that
    match a term (the implementation prints them) and [lookup] yields a
    node record or NotFound, both as functions of the state they read;
    the rendering of a record is total. *)
Record QueryStore : Type := {
  qs_graph : Type;
  qs_node : Type;
  qs_new : qs_graph;
  qs_load : str -> qs_graph -> qs_graph;
  qs_search : qs_graph -> str -> list str;
  qs_lookup : qs_graph -> str -> option qs_node;
  qs_render : qs_node -> str
}.

(** Such a collaborator behind the interface [main] uses: a query hands
    back the state it was given. *)
Definition query_store (qs : QueryStore) : GraphStore := {|
  graph := qs_graph qs;
  node := qs_node qs;
  new_graph := qs_new qs;
  load := qs_load qs;
  list_nodes := fun term g => (g, qs_search qs g term);
  get_node := fun name g => (g, qs_lookup qs g name);
  repr := qs_render qs
|}.

(** The contract of the collaborator after loading: its two queries leave
    the graph as they found it. *)
Definition read_only (gs : GraphStore) : Prop :=
  (forall term g, fst (list_nodes gs term g) = g) /\
  (forall name g, fst (get_node gs name g) = g).

(** Two graph objects, with states related by [R], answer searches alike:
    the same lines are printed and the states stay related. *)
Definition same_search
    (gs1 gs2 : GraphStore) (R : graph gs1 -> graph gs2 -> Prop) : Prop :=
  forall term g1 g2,
    R g1 g2 ->
    snd (list_nodes gs1 term g1) = snd (list_nodes gs2 term g2) /\
    R (fst (list_nodes gs1 term g1)) (fst (list_nodes gs2 term g2)).

(** They answer lookups alike: both miss, or both find nodes with the same
    [repr], and the states stay related. *)
Definition same_lookup
    (gs1 gs2 : GraphStore) (R : graph gs1 -> graph gs2 -> Prop) : Prop :=
  forall name g1 g2,
    R g1 g2 ->
    option_map (repr gs1) (snd (get_node gs1 name g1))
    = option_map (repr gs2) (snd (get_node gs2 name g2)) /\
    R (fst (get_node gs1 name g1)) (fst (get_node gs2 name g2)).

(** ** A two-node graph for running sessions *)

Module Scenario.

Record node_record : Type := Node {
  name : str;
  preds : list str;
  succs : list str
}.

Definition A : node_record := Node (lit "A") [lit "B"] [].
Definition B : node_record := Node (lit "B") [] [lit "A"].

(** [term in s]. *)
Fixpoint contains (term s : str) : bool :=
  startswith s term
  || match s with [] => false | _ :: s' => contains term s' end.

Definition render (n : node_record) : str :=
  name n ++ lit " <- " ++ List.concat (preds n) ++ lit " -> " ++ List.concat (succs n).

(** Modelled from the spec: the graph file of the scenario in the testable
    properties, with nodes [A] (referenced by [B]) and [B]; loading any
    path yields these two nodes, searching lists the names that contain
    the term, looking up finds a node by its exact name. *)
Definition store : GraphStore := {|
  graph := list node_record;
  node := node_record;
  new_graph := [];
  load := fun _ _ => [A; B];
  list_nodes := fun term g =>
    (g, List.map name (filter (fun n => contains term (name n)) g));
  get_node := fun nm g => (g, find (fun n => eqb (name n) nm) g);
  repr := render
|}.

(** The searches and lookups of [store], as the queries of a collaborator
    that only reads its graph. *)
Definition queries : QueryStore := {|
  qs_graph := list node_record;
  qs_node := node_record;
  qs_new := [];
  qs_load := fun _ _ => [A; B];
  qs_search := fun g term =>
    List.map name (filter (fun n => contains term (name n)) g);
  qs_lookup := fun g nm => find (fun n => eqb (name n) nm) g;
  qs_render := render
|}.

(** The same graph behind an object that also counts the queries it
    answers: a store whose methods do change its state. *)
Definition counting : GraphStore := {|
  graph := list node_record * nat;
  node := node_record;
  new_graph := ([], 0);
  load := fun _ g => ([A; B], snd g);
  list_nodes := fun term g =>
    ((fst g, S (snd g)), snd (list_nodes store term (fst g)));
  get_node := fun nm g =>
    ((fst g, S (snd g)), snd (get_node store nm (fst g)));
  repr := render
|}.

End Scenario.

(** ** Reading a session off its input *)

Definition is_print (e : event) : bool :=
  match e with Print _ => true | _ => false end.

(** A line made of whitespace only, the empty line included. *)
Definition blank (s : str) : bool := forallb isspace s.

(** The lines standard input holds in front of its first ["x"]. *)
Fixpoint before_exit (stdin : list str) : list str :=
  match stdin with
  | [] => []
  | s :: rest => if eqb s (lit "x") then [] else s :: before_exit rest
  end.

(** A trace without its prompts: the calls on the graph and the prints. *)
Definition unprompted (tr : list event) : list event :=
  filter (fun e => negb (is_prompt e)) tr.

(** A trace of the loop replayed on the graph it started from: a search
    carries what [list_nodes] printed on the graph as it then was; a
    lookup is followed at once by the one line the loop prints for it,
    the [repr] of the node [get_node] returned or the not-found message
    for the name asked; there is no print but these, and no [load]. *)
Fixpoint answered (gs : GraphStore) (g : graph gs) (tr : list event)
    {struct tr} : Prop :=
  match tr with
  | [] => True
  | Prompt :: tl => answered gs g tl
  | CallListNodes term printed :: tl =>
      printed = snd (list_nodes gs term g) /\
      answered gs (fst (list_nodes gs term g)) tl
  | CallGetNode name :: Print line :: tl =>
      line = match snd (get_node gs name g) with
             | Some n => repr gs n
             | None => not_found_msg name
             end /\
      answered gs (fst (get_node gs name g)) tl
  | _ => False
  end.

(** ** Strings: equality, stripping, prefixes *)

Lemma eqb_eq (a b : str) : eqb a b = true <-> a = b.
Proof.
  revert b; induction a as [|x a IH]; intros [|y b]; simpl;
    try (split; [discriminate | congruence]); try tauto.
  rewrite andb_true_iff, N.eqb_eq, IH.
  split; [intros [-> ->]; reflexivity | intros E; inversion E; auto].
Qed.

Lemma eqb_neq (a b : str) : eqb a b = false <-> a <> b.
Proof.
  rewrite <- eqb_eq. destruct (eqb a b); split; congruence.
Qed.

Lemma eqb_refl (a : str) : eqb a a = true.
Proof. apply eqb_eq; reflexivity. Qed.

Lemma truthy_false (s : str) : truthy s = false <-> s = [].
Proof. destruct s; simpl; split; congruence. Qed.

Lemma lstrip_nil (s : str) : lstrip s = [] <-> forallb isspace s = true.
Proof.
  induction s as [|c s IH]; simpl; [tauto|].
  destruct (isspace c); simpl; [exact IH | split; discriminate].
Qed.

Lemma lstrip_not_space (c : char) (s : str) :
  isspace c = false -> lstrip (c :: s) = c :: s.
Proof. intros H; simpl; rewrite H; reflexivity. Qed.

Lemma lstrip_app_not_space (s : str) (c : char) :
  isspace c = false -> exists t, lstrip (s ++ [c]) = t ++ [c].
Proof.
  intros H; induction s as [|d s [t IH]]; simpl.
  - rewrite H; exists []; reflexivity.
  - destruct (isspace d); [exists t; exact IH | exists (d :: s); reflexivity].
Qed.

Lemma rstrip_nil (s : str) : rstrip s = [] <-> forallb isspace s = true.
Proof.
  unfold rstrip. rewrite forallb_forall.
  split.
  - intros H x Hx.
    assert (E : lstrip (rev s) = []).
    { apply (f_equal (@rev _)) in H. rewrite rev_involutive in H. exact H. }
    rewrite lstrip_nil, forallb_forall in E. apply E, in_rev.
    rewrite rev_involutive; exact Hx.
  - intros H.
    assert (E : lstrip (rev s) = []).
    { apply lstrip_nil, forallb_forall. intros x Hx. apply H, in_rev, Hx. }
    rewrite E; reflexivity.
Qed.

(** Stripping on the right keeps a first character that is not
    whitespace. *)
Lemma rstrip_head (c : char) (s : str) :
  isspace c = false -> exists t, rstrip (c :: s) = c :: t.
Proof.
  intros H. unfold rstrip; simpl.
  destruct (lstrip_app_not_space (rev s) c H) as [t E].
  rewrite E, rev_app_distr; simpl. eexists; reflexivity.
Qed.

Lemma strip_head (c : char) (s : str) :
  isspace c = false -> exists t, strip (c :: s) = c :: t.
Proof.
  intros H. unfold strip. rewrite (lstrip_not_space c s H).
  apply rstrip_head, H.
Qed.

Lemma lstrip_forallb_false (s : str) :
  forallb isspace s = false -> forallb isspace (lstrip s) = false.
Proof.
  induction s as [|c s IH]; simpl; [discriminate|].
  destruct (isspace c) eqn:E; simpl; [exact IH | rewrite E; reflexivity].
Qed.

(** [s.strip()] is empty exactly when every character of [s] is
    whitespace (in particular for the empty string). *)
Lemma strip_nil (s : str) : strip s = [] <-> forallb isspace s = true.
Proof.
  unfold strip. rewrite rstrip_nil. split.
  - intros H. destruct (forallb isspace s) eqn:E; [reflexivity|].
    rewrite (lstrip_forallb_false _ E) in H; discriminate.
  - intros H. apply lstrip_nil in H. rewrite H; reflexivity.
Qed.

Lemma startswith_app (p s : str) : startswith (p ++ s) p = true.
Proof.
  induction p as [|c p IH]; simpl; [destruct s; reflexivity|].
  rewrite N.eqb_refl; exact IH.
Qed.

Lemma startswith_inv (s p : str) :
  startswith s p = true -> s = p ++ slice_from (List.length p) s.
Proof.
  revert s; induction p as [|c p IH]; intros [|d s]; simpl;
    try reflexivity; try discriminate.
  rewrite andb_true_iff, N.eqb_eq. intros [-> H].
  f_equal. apply IH, H.
Qed.

(** ** The tests of the loop, one by one *)

(** Case analysis on the three tests, in the order of the code. *)
Ltac loop_tests s :=
  let Ex := fresh "Ex" in
  let Ee := fresh "Ee" in
  let Es := fresh "Es" in
  destruct (eqb s (lit "x")) eqn:Ex;
  [ apply eqb_eq in Ex
  | apply eqb_neq in Ex;
    destruct (truthy (strip s)) eqn:Ee; simpl negb;
    [ destruct (startswith s (lit "s ")) eqn:Es | apply truthy_false in Ee ] ].

Lemma truthy_true (s : str) : truthy s = true <-> s <> [].
Proof. destruct s; simpl; split; congruence. Qed.

Lemma iteration_dispatch (gs : GraphStore) (g : graph gs) (s : str) :
  iteration gs g s = dispatch gs (classify s) g.
Proof.
  unfold iteration, classify. loop_tests s; reflexivity.
Qed.

Lemma classify_exit (s : str) : classify s = Exit <-> s = lit "x".
Proof.
  unfold classify. loop_tests s; split; congruence.
Qed.

Lemma classify_empty (s : str) : classify s = Empty <-> strip s = [].
Proof.
  unfold classify. loop_tests s; split; try congruence.
  - subst s. discriminate.
  - intros H. rewrite H in Ee. discriminate.
  - intros H. rewrite H in Ee. discriminate.
Qed.

Lemma search_prefix_inv (s : str) :
  startswith s (lit "s ") = true -> s = lit "s " ++ slice_from 2 s.
Proof. exact (startswith_inv s (lit "s ")). Qed.

(** A line that starts with a character other than whitespace is neither
    blank nor stripped to nothing. *)
Lemma strip_cons_not_nil (c : char) (s : str) :
  isspace c = false -> truthy (strip (c :: s)) = true.
Proof.
  intros H. destruct (strip_head c s H) as [t ->]. reflexivity.
Qed.

Lemma classify_search_prefix (term : str) :
  classify (lit "s " ++ term) = Search term.
Proof.
  assert (H : truthy (strip (lit "s " ++ term)) = true)
    by exact (strip_cons_not_nil 115%N (32%N :: term) eq_refl).
  unfold classify. rewrite H, startswith_app. reflexivity.
Qed.

Lemma classify_search (s term : str) :
  classify s = Search term <->
  startswith s (lit "s ") = true /\ term = slice_from 2 s.
Proof.
  split.
  - unfold classify. loop_tests s; try discriminate.
    intros H; inversion H; auto.
  - intros [H ->]. apply search_prefix_inv in H. rewrite H at 1.
    apply classify_search_prefix.
Qed.

Lemma classify_lookup (s name : str) :
  classify s = Lookup name <->
  s <> lit "x" /\ strip s <> [] /\ startswith s (lit "s ") = false /\ name = s.
Proof.
  unfold classify. loop_tests s.
  - split; [discriminate | intros (H & _); contradiction].
  - split; [discriminate | intros (_ & _ & H & _); discriminate].
  - apply truthy_true in Ee. split.
    + intros H; inversion H; subst; repeat split; assumption.
    + intros (_ & _ & _ & ->); reflexivity.
  - split; [discriminate | intros (_ & H & _); contradiction].
Qed.

(** A line that starts with whitespace does not start with ["s "]. *)
Lemma space_first_no_prefix (c : char) (rest : str) :
  isspace c = true -> startswith (c :: rest) (lit "s ") = false.
Proof.
  intros H. simpl. destruct (N.eqb_spec c 115%N) as [->|_]; [discriminate|].
  reflexivity.
Qed.

(** The line ["x"] is the only one that strips to ["x"] without being
    changed by the stripping. *)
Lemma strip_x_first (s : str) :
  strip s = lit "x" -> startswith s (lit "s ") = false.
Proof.
  intros H. destruct (startswith s (lit "s ")) eqn:E; [|reflexivity].
  apply search_prefix_inv in E. rewrite E in H.
  assert (Ht : exists t, strip (lit "s " ++ slice_from 2 s) = 115%N :: t)
    by exact (strip_head 115%N (32%N :: slice_from 2 s) eq_refl).
  destruct Ht as [t Ht]. rewrite Ht in H. discriminate.
Qed.

Section Frame.

Variable gs : GraphStore.

Lemma iteration_no_load (g : graph gs) (s : str) :
  count is_load (events (iteration gs g s)) = 0.
Proof.
  unfold iteration. loop_tests s; try reflexivity.
  - destruct (list_nodes gs (slice_from 2 s) g); reflexivity.
  - destruct (get_node gs s g) as [g' [n|]]; reflexivity.
Qed.

Lemma iteration_one_call (g : graph gs) (s : str) :
  count is_call (events (iteration gs g s)) <= 1.
Proof.
  unfold iteration, count. loop_tests s.
  - simpl; lia.
  - destruct (list_nodes gs (slice_from 2 s) g); simpl; lia.
  - destruct (get_node gs s g) as [g' [n|]]; simpl; lia.
  - simpl; lia.
Qed.

Lemma iteration_frame (g : graph gs) (s : str) :
  read_only gs -> graph_after (iteration gs g s) = g.
Proof.
  intros [Hs Hl]. unfold iteration. loop_tests s; try reflexivity.
  - specialize (Hs (slice_from 2 s) g).
    destruct (list_nodes gs (slice_from 2 s) g); exact Hs.
  - specialize (Hl s g).
    destruct (get_node gs s g) as [g' [n|]]; exact Hl.
Qed.

Lemma count_app (p : event -> bool) (a b : list event) :
  count p (a ++ b) = count p a + count p b.
Proof. unfold count. rewrite filter_app, length_app. reflexivity. Qed.

Lemma query_loop_no_load (stdin : list str) :
  forall g, count is_load (trace (query_loop gs g stdin)) = 0.
Proof.
  induction stdin as [|s rest IH]; intros g; simpl; [reflexivity|].
  pose proof (iteration_no_load g s) as H0.
  destruct (next (iteration gs g s)); simpl.
  - change (count is_load (events (iteration gs g s) ++
              trace (query_loop gs (graph_after (iteration gs g s)) rest)) = 0).
    rewrite count_app, H0, IH. reflexivity.
  - exact H0.
Qed.

Lemma query_loop_frame (stdin : list str) :
  read_only gs -> forall g, final_graph (query_loop gs g stdin) = g.
Proof.
  intros RO. induction stdin as [|s rest IH]; intros g; simpl; [reflexivity|].
  pose proof (iteration_frame g s RO) as Hf.
  destruct (next (iteration gs g s)); simpl.
  - rewrite IH. exact Hf.
  - exact Hf.
Qed.

(** Unfolding of the loop on a line that does not end it. *)
Lemma query_loop_continue (g : graph gs) (s : str) (rest : list str) :
  next (iteration gs g s) = Prompting ->
  query_loop gs g (s :: rest) =
  let t := iteration gs g s in
  let r := query_loop gs (graph_after t) rest in
  Session (final_graph r) (Prompt :: events t ++ trace r)
          (S (iterations r)) (result r).
Proof. intros H. simpl. rewrite H. reflexivity. Qed.

Lemma iteration_next (g : graph gs) (s : str) :
  next (iteration gs g s) = Terminated <-> s = lit "x".
Proof.
  unfold iteration. loop_tests s.
  - simpl; tauto.
  - destruct (list_nodes gs (slice_from 2 s) g); simpl.
    split; [discriminate | contradiction].
  - destruct (get_node gs s g) as [g' [n|]]; simpl;
      (split; [discriminate | contradiction]).
  - simpl; split; [discriminate | contradiction].
Qed.

End Frame.

Lemma iteration_next_prompting (gs : GraphStore) (g : graph gs) (s : str) :
  s <> lit "x" -> next (iteration gs g s) = Prompting.
Proof.
  intros H. destruct (next (iteration gs g s)) eqn:E; [reflexivity|].
  apply iteration_next in E. contradiction.
Qed.

Lemma iteration_search (gs : GraphStore) (g : graph gs) (s : str) :
  startswith s (lit "s ") = true ->
  iteration gs g s =
  (let (g', printed) := list_nodes gs (slice_from 2 s) g in
   Turn g' [CallListNodes (slice_from 2 s) printed] Prompting).
Proof.
  intros H. rewrite iteration_dispatch.
  replace (classify s) with (Search (slice_from 2 s)); [reflexivity|].
  symmetry; apply classify_search; auto.
Qed.

Lemma iteration_lookup (gs : GraphStore) (g : graph gs) (s : str) :
  classify s = Lookup s ->
  iteration gs g s =
  (let (g', found) := get_node gs s g in
   match found with
   | Some n => Turn g' [CallGetNode s; Print (repr gs n)] Prompting
   | None => Turn g' [CallGetNode s; Print (not_found_msg s)] Prompting
   end).
Proof.
  intros H. rewrite iteration_dispatch, H. reflexivity.
Qed.

(** ** The exit command *)

(** C1 fails as stated: the line [" x "] strips to ["x"], yet it is not the
    exit command.  It is looked up under its raw text and the loop goes on
    to read the next line; so stripping to ["x"] does not imply [Exit]. *)
Lemma padded_x_is_not_exit :
  strip (lit " x ") = lit "x" /\
  classify (lit " x ") = Lookup (lit " x ") /\
  next (iteration Scenario.store [Scenario.A; Scenario.B] (lit " x "))
  = Prompting /\
  iterations
    (query_loop Scenario.store [Scenario.A; Scenario.B] [lit " x "; lit "x"])
  = 1 /\
  ~ (forall s, strip s = lit "x" -> classify s = Exit).
Proof.
  repeat (split; [reflexivity|]).
  intros H. specialize (H (lit " x ") eq_refl). discriminate H.
Qed.

(** C1 (amended): among the lines that strip to ["x"], the raw line ["x"]
    itself is the exit command and ends the loop, whatever else standard
    input holds; any other one (such as [" x "]) is a lookup of the raw
    line, after which the loop keeps prompting. *)
Theorem exit_on_exact_line
    (gs : GraphStore) (g : graph gs) (s : str) (rest : list str) :
  strip s = lit "x" ->
  (s = lit "x" ->
   classify s = Exit /\
   query_loop gs g (s :: rest) = Session g [Prompt] 0 Exited) /\
  (s <> lit "x" ->
   classify s = Lookup s /\ next (iteration gs g s) = Prompting).
Proof.
  intros Hs. split.
  - intros ->. split; reflexivity.
  - intros Hx. split.
    + apply classify_lookup. repeat split; auto.
      * rewrite Hs; discriminate.
      * apply strip_x_first, Hs.
    + apply iteration_next_prompting, Hx.
Qed.

Lemma exit_on_exact_line_witness :
  classify (lit "x") = Exit /\ classify (lit " x ") = Lookup (lit " x ").
Proof.
  split.
  - destruct (exit_on_exact_line Scenario.store [] (lit "x") [] eq_refl)
      as [H _].
    apply H; reflexivity.
  - destruct (exit_on_exact_line Scenario.store [] (lit " x ") [] eq_refl)
      as [_ H].
    apply H; discriminate.
Defined.

(** C2: the loop ends on a line exactly when the raw line is ["x"].  On
    every other line, ["X"], ["x "] and ["xx"] among them, the turn leaves
    the loop prompting and the body has run once more before the rest of
    the input is handled. *)
Theorem only_exact_x_terminates (gs : GraphStore) (g : graph gs) :
  (forall s, next (iteration gs g s) = Terminated <-> s = lit "x") /\
  (forall s, classify s = Exit <-> s = lit "x") /\
  (forall s rest,
     s <> lit "x" ->
     iterations (query_loop gs g (s :: rest)) =
     S (iterations (query_loop gs (graph_after (iteration gs g s)) rest))) /\
  next (iteration gs g (lit "X")) = Prompting /\
  next (iteration gs g (lit "x ")) = Prompting /\
  next (iteration gs g (lit "xx")) = Prompting.
Proof.
  split; [intros s; apply iteration_next|].
  split; [intros s; apply classify_exit|].
  split.
  - intros s rest H.
    rewrite (query_loop_continue gs g s rest
               (iteration_next_prompting gs g s H)).
    reflexivity.
  - repeat split; apply iteration_next_prompting; discriminate.
Qed.

Lemma only_exact_x_terminates_witness :
  iterations
    (query_loop Scenario.store [Scenario.A; Scenario.B]
                [lit "x "; lit "X"; lit "xx"; lit "x"; lit "A"]) = 3.
Proof.
  destruct (only_exact_x_terminates Scenario.store [Scenario.A; Scenario.B])
    as (_ & _ & H & _).
  rewrite (H (lit "x ")); [reflexivity | discriminate].
Defined.

(** ** Blank lines *)

(** C3: on a line that is empty or made of whitespace only, the turn calls
    neither [list_nodes] nor [get_node], prints nothing, leaves the graph
    alone and leaves the loop prompting: the session is the prompt followed
    by the session on the rest of the input. *)
Theorem blank_line_reprompts
    (gs : GraphStore) (g : graph gs) (s : str) (rest : list str) :
  forallb isspace s = true ->
  classify s = Empty /\
  iteration gs g s = Turn g [] Prompting /\
  query_loop gs g (s :: rest) =
  (let r := query_loop gs g rest in
   Session (final_graph r) (Prompt :: trace r) (S (iterations r)) (result r)).
Proof.
  intros H. apply strip_nil in H.
  assert (Hc : classify s = Empty) by (apply classify_empty, H).
  assert (Hi : iteration gs g s = Turn g [] Prompting)
    by (rewrite iteration_dispatch, Hc; reflexivity).
  repeat split; auto.
  simpl. rewrite Hi. reflexivity.
Qed.

Lemma blank_line_reprompts_witness :
  iteration Scenario.store [Scenario.A] [32%N; 9%N; 160%N]
  = Turn [Scenario.A] [] Prompting
  /\ iteration Scenario.store [Scenario.A] [] = Turn [Scenario.A] [] Prompting.
Proof.
  split.
  - apply (blank_line_reprompts Scenario.store [Scenario.A]
             [32%N; 9%N; 160%N] []).
    reflexivity.
  - apply (blank_line_reprompts Scenario.store [Scenario.A] [] []).
    reflexivity.
Defined.

(** ** Searching *)

(** C4: a line whose raw text begins with ["s "] is that prefix followed
    by a remainder, and the turn calls [list_nodes] with exactly the
    remainder, makes no lookup, and leaves the loop prompting.  A line
    with a whitespace character in front is never a search. *)
Theorem search_takes_remainder
    (gs : GraphStore) (g : graph gs) (s : str) :
  startswith s (lit "s ") = true ->
  s = lit "s " ++ slice_from 2 s /\
  s <> lit "x" /\
  classify s = Search (slice_from 2 s) /\
  iteration gs g s =
  (let (g', printed) := list_nodes gs (slice_from 2 s) g in
   Turn g' [CallListNodes (slice_from 2 s) printed] Prompting) /\
  count is_lookup (events (iteration gs g s)) = 0 /\
  next (iteration gs g s) = Prompting /\
  (forall c rest term,
     isspace c = true -> classify (c :: rest) <> Search term).
Proof.
  intros H.
  assert (Hx : s <> lit "x") by (intros ->; discriminate H).
  split; [apply search_prefix_inv, H|].
  split; [exact Hx|].
  split; [apply classify_search; auto|].
  split; [apply iteration_search, H|].
  split.
  - rewrite (iteration_search gs g s H).
    destruct (list_nodes gs (slice_from 2 s) g); reflexivity.
  - split; [apply iteration_next_prompting, Hx|].
    intros c rest term Hc Hs. apply classify_search in Hs.
    rewrite (space_first_no_prefix c rest Hc) in Hs.
    destruct Hs; discriminate.
Qed.

Lemma search_takes_remainder_witness :
  iteration Scenario.store [Scenario.A; Scenario.B] (lit "s  A ")
  = Turn [Scenario.A; Scenario.B] [CallListNodes (lit " A ") []] Prompting
  /\ classify (lit " s A") <> Search (lit "A").
Proof.
  destruct (search_takes_remainder Scenario.store [Scenario.A; Scenario.B]
              (lit "s  A ") eq_refl) as (_ & _ & _ & H & _ & _ & K).
  split; [exact H | apply (K 32%N (lit "s A") (lit "A")); reflexivity].
Defined.

(** ** Looking a node up *)

(** C5: a line that passes none of the three earlier tests (it is not
    ["x"], which covers every line that does not strip to ["x"]; it does
    not strip to nothing; it does not begin with ["s "]) is looked up:
    [get_node] is called on the raw line, and the graph is the one that
    call leaves. *)
Theorem lookup_uses_raw_line
    (gs : GraphStore) (g : graph gs) (s : str) :
  s <> lit "x" ->
  strip s <> [] ->
  startswith s (lit "s ") = false ->
  classify s = Lookup s /\
  graph_after (iteration gs g s) = fst (get_node gs s g) /\
  count is_search (events (iteration gs g s)) = 0 /\
  exists printed,
    events (iteration gs g s) = [CallGetNode s; Print printed].
Proof.
  intros Hx He Hs.
  assert (Hc : classify s = Lookup s) by (apply classify_lookup; auto).
  split; [exact Hc|].
  rewrite (iteration_lookup gs g s Hc).
  destruct (get_node gs s g) as [g' [n|]]; simpl;
    repeat split; eexists; reflexivity.
Qed.

Lemma lookup_uses_raw_line_witness :
  classify (lit " A ") = Lookup (lit " A ").
Proof.
  apply (lookup_uses_raw_line Scenario.store [Scenario.A; Scenario.B]
           (lit " A "));
    [discriminate | discriminate | reflexivity].
Defined.

(** C6: on a line dispatched as a lookup the key is the raw line.  When
    [get_node] raises [KeyError] the turn prints
    [Cannot find a node named '<line>'] and nothing else; when it returns a
    node the turn prints that node's [repr] and nothing else.  Either way
    the loop is left prompting and handles the rest of the input. *)
Theorem lookup_miss_and_hit
    (gs : GraphStore) (g : graph gs) (s name : str) (rest : list str) :
  classify s = Lookup name ->
  name = s /\
  not_found_msg s = lit "Cannot find a node named '" ++ s ++ lit "'" /\
  (snd (get_node gs s g) = None ->
   iteration gs g s =
   Turn (fst (get_node gs s g))
        [CallGetNode s; Print (not_found_msg s)] Prompting) /\
  (forall n,
     snd (get_node gs s g) = Some n ->
     iteration gs g s =
     Turn (fst (get_node gs s g))
          [CallGetNode s; Print (repr gs n)] Prompting) /\
  next (iteration gs g s) = Prompting /\
  query_loop gs g (s :: rest) =
  (let t := iteration gs g s in
   let r := query_loop gs (fst (get_node gs s g)) rest in
   Session (final_graph r) (Prompt :: events t ++ trace r)
           (S (iterations r)) (result r)).
Proof.
  intros H.
  assert (Hn : name = s) by (apply classify_lookup in H; tauto).
  subst name.
  pose proof (iteration_lookup gs g s H) as Hi.
  assert (Hx : s <> lit "x") by (apply classify_lookup in H; tauto).
  pose proof (iteration_next_prompting gs g s Hx) as Hp.
  split; [reflexivity|].
  split; [reflexivity|].
  split; [|split; [|split; [exact Hp|]]].
  - intros E. rewrite Hi. destruct (get_node gs s g) as [g' found].
    simpl in E; subst found. reflexivity.
  - intros n E. rewrite Hi. destruct (get_node gs s g) as [g' found].
    simpl in E; subst found. reflexivity.
  - assert (Hg : graph_after (iteration gs g s) = fst (get_node gs s g)).
    { rewrite Hi. destruct (get_node gs s g) as [g' [n|]]; reflexivity. }
    rewrite (query_loop_continue gs g s rest Hp). cbv zeta.
    rewrite Hg. reflexivity.
Qed.

Lemma lookup_miss_and_hit_witness :
  stdout (events (iteration Scenario.store [Scenario.A; Scenario.B] (lit "Z")))
  = [lit "Cannot find a node named 'Z'"]
  /\ stdout (events
               (iteration Scenario.store [Scenario.A; Scenario.B] (lit "A")))
     = [Scenario.render Scenario.A].
Proof.
  split.
  - destruct (lookup_miss_and_hit Scenario.store [Scenario.A; Scenario.B]
                (lit "Z") (lit "Z") [] eq_refl) as (_ & _ & H & _).
    rewrite H; reflexivity.
  - destruct (lookup_miss_and_hit Scenario.store [Scenario.A; Scenario.B]
                (lit "A") (lit "A") [] eq_refl) as (_ & _ & _ & H & _).
    rewrite (H Scenario.A); reflexivity.
Defined.

(** ** Totality and determinism of the classification *)

Lemma branch_classify (s : str) : branch s (classify s).
Proof.
  unfold classify. loop_tests s.
  - subst s. constructor.
  - apply truthy_true in Ee. constructor; assumption.
  - apply truthy_true in Ee. constructor; assumption.
  - constructor; assumption.
Qed.

Lemma branch_functional (s : str) (c : Command) :
  branch s c -> c = classify s.
Proof.
  intros H. symmetry. destruct H.
  - reflexivity.
  - apply classify_empty; assumption.
  - apply classify_search; auto.
  - apply classify_lookup; auto.
Qed.

(** C7: every line takes one way through the tests of the loop, and only
    one: the rules of [branch] relate it to the command [classify]
    computes and to no other.  The classification is a total function
    (stripping, the prefix test and the slice are defined on every
    string), the turn runs the branch of that one command, and so makes at
    most one call on the graph. *)
Theorem classification_total_deterministic
    (gs : GraphStore) (g : graph gs) (s : str) :
  (exists c, branch s c) /\
  (forall c1 c2, branch s c1 -> branch s c2 -> c1 = c2) /\
  branch s (classify s) /\
  iteration gs g s = dispatch gs (classify s) g /\
  count is_call (events (iteration gs g s)) <= 1.
Proof.
  split; [exists (classify s); apply branch_classify|].
  split.
  - intros c1 c2 H1 H2.
    rewrite (branch_functional s c1 H1), (branch_functional s c2 H2).
    reflexivity.
  - split; [apply branch_classify|].
    split; [apply iteration_dispatch | apply iteration_one_call].
Qed.

Lemma classification_total_deterministic_witness :
  Search (lit "A") = classify (lit "s A").
Proof.
  destruct (classification_total_deterministic
              Scenario.store [] (lit "s A")) as (_ & H & K & _).
  apply H; [apply (branch_search (lit "s A")) | exact K];
    [discriminate | discriminate | reflexivity].
Defined.

(** ** The graph is loaded once and then only queried *)

Lemma query_loop_starts_prompting
    (gs : GraphStore) (g : graph gs) (stdin : list str) :
  exists tl, trace (query_loop gs g stdin) = Prompt :: tl.
Proof.
  destruct stdin as [|s rest]; simpl; [eexists; reflexivity|].
  destruct (next (iteration gs g s)); eexists; reflexivity.
Qed.

(** A store that counts its queries does change under them. *)
Example counting_not_read_only : ~ read_only Scenario.counting.
Proof.
  intros [H _]. specialize (H [] ([], 0)). discriminate H.
Qed.

Lemma query_store_read_only (qs : QueryStore) : read_only (query_store qs).
Proof. split; reflexivity. Qed.

(** The scenario store is a collaborator that only reads its graph. *)
Example scenario_store_queries : query_store Scenario.queries = Scenario.store.
Proof. reflexivity. Qed.

(** C8: [main] calls [load] once, after the loading notice and before the
    first prompt, and no turn of the loop calls it again; this holds for
    any graph object.  The loop itself never replaces the graph: after an
    empty line or the exit command it is the graph the turn started with,
    after a search or a lookup it is the graph the one query leaves.  For
    the collaborator of the contract, whose queries read the graph, that
    is the same graph again: every turn, whatever the command, and the
    whole session end with the graph that [load] produced. *)
Theorem graph_loaded_once_and_kept
    (gs : GraphStore) (qs : QueryStore) (path : str) (stdin : list str) :
  count is_load (trace (main gs path stdin)) = 1 /\
  (exists tl,
     trace (main gs path stdin)
     = Print LOADING_MSG :: CallLoad path :: Prompt :: tl
     /\ count is_load tl = 0) /\
  (forall g s, count is_load (events (iteration gs g s)) = 0) /\
  (forall g,
     graph_after (dispatch gs Empty g) = g /\
     graph_after (dispatch gs Exit g) = g /\
     (forall term,
        graph_after (dispatch gs (Search term) g)
        = fst (list_nodes gs term g)) /\
     (forall name,
        graph_after (dispatch gs (Lookup name) g)
        = fst (get_node gs name g))) /\
  (forall g c, graph_after (dispatch (query_store qs) c g) = g) /\
  (forall g s, graph_after (iteration (query_store qs) g s) = g) /\
  final_graph (main (query_store qs) path stdin)
  = qs_load qs path (qs_new qs).
Proof.
  pose proof (query_loop_no_load gs stdin (load gs path (new_graph gs))) as H0.
  pose proof (query_store_read_only qs) as RO.
  split; [|split; [|split; [|split; [|split; [|split]]]]].
  - change (S (count is_load
                 (trace (query_loop gs (load gs path (new_graph gs)) stdin)))
            = 1).
    rewrite H0; reflexivity.
  - destruct (query_loop_starts_prompting gs
                (load gs path (new_graph gs)) stdin) as [tl E].
    exists tl. unfold main. cbn [trace]. rewrite E in H0 |- *.
    split; [reflexivity | exact H0].
  - intros g s. apply iteration_no_load.
  - intros g. split; [reflexivity|]. split; [reflexivity|]. split.
    + intros term. simpl. destruct (list_nodes gs term g); reflexivity.
    + intros name. simpl.
      destruct (get_node gs name g) as [g' [n|]]; reflexivity.
  - intros g [| |term|name]; try reflexivity.
    simpl. destruct (qs_lookup qs g name); reflexivity.
  - intros g s. apply iteration_frame, RO.
  - unfold main. cbn [final_graph].
    apply (query_loop_frame (query_store qs) stdin RO).
Qed.

Lemma scenario_read_only : read_only Scenario.store.
Proof. split; reflexivity. Defined.

(** ** A bare [s] *)

(** C9: the line ["s"], and any line made of [s] followed by a character
    that is not the space (["search"] for one), is not a search: the turn
    calls [get_node] on the raw line and never [list_nodes]. *)
Theorem s_without_space_is_lookup
    (gs : GraphStore) (g : graph gs) (c : char) (rest : str) :
  c <> 32%N ->
  classify (lit "s") = Lookup (lit "s") /\
  classify (lit "s" ++ c :: rest) = Lookup (lit "s" ++ c :: rest) /\
  classify (lit "search") = Lookup (lit "search") /\
  (exists printed,
     events (iteration gs g (lit "s"))
     = [CallGetNode (lit "s"); Print printed]) /\
  (exists printed,
     events (iteration gs g (lit "s" ++ c :: rest))
     = [CallGetNode (lit "s" ++ c :: rest); Print printed]).
Proof.
  intros Hc.
  assert (H1 : classify (lit "s") = Lookup (lit "s")) by reflexivity.
  assert (H2 : classify (lit "s" ++ c :: rest) = Lookup (lit "s" ++ c :: rest)).
  { apply classify_lookup. repeat split.
    - discriminate.
    - apply truthy_true.
      exact (strip_cons_not_nil 115%N (c :: rest) eq_refl).
    - simpl. destruct (N.eqb_spec c 32) as [E|_]; [contradiction|reflexivity]. }
  split; [exact H1|]. split; [exact H2|]. split; [reflexivity|].
  split.
  - rewrite (iteration_lookup gs g _ H1).
    destruct (get_node gs (lit "s") g) as [g' [n|]]; eexists; reflexivity.
  - rewrite (iteration_lookup gs g _ H2).
    destruct (get_node gs (lit "s" ++ c :: rest) g) as [g' [n|]];
      eexists; reflexivity.
Qed.

Lemma s_without_space_is_lookup_witness :
  classify (lit "s" ++ 9%N :: lit "A") = Lookup (lit "s" ++ 9%N :: lit "A").
Proof.
  apply (s_without_space_is_lookup Scenario.store [] 9%N (lit "A")).
  discriminate.
Defined.

(** ** Two runs on the same input *)

Section TwoRuns.

Variables gs1 gs2 : GraphStore.

(** [R] relates the states of two graph objects that answer alike. *)
Variable R : graph gs1 -> graph gs2 -> Prop.

Hypothesis Hsearch : same_search gs1 gs2 R.
Hypothesis Hlookup : same_lookup gs1 gs2 R.

Lemma iteration_alike (s : str) (g1 : graph gs1) (g2 : graph gs2) :
  R g1 g2 ->
  events (iteration gs1 g1 s) = events (iteration gs2 g2 s) /\
  next (iteration gs1 g1 s) = next (iteration gs2 g2 s) /\
  R (graph_after (iteration gs1 g1 s)) (graph_after (iteration gs2 g2 s)).
Proof.
  intros HR. rewrite !iteration_dispatch.
  destruct (classify s) as [| |term|name]; simpl; auto.
  - destruct (Hsearch term g1 g2 HR) as [Hp Hg].
    destruct (list_nodes gs1 term g1) as [g1' p1].
    destruct (list_nodes gs2 term g2) as [g2' p2].
    simpl in *. subst p2. auto.
  - destruct (Hlookup name g1 g2 HR) as [Hp Hg].
    destruct (get_node gs1 name g1) as [g1' [n1|]];
      destruct (get_node gs2 name g2) as [g2' [n2|]];
      simpl in *; try discriminate; auto.
    inversion Hp as [E]. rewrite E. auto.
Qed.

Lemma query_loop_alike (stdin : list str) :
  forall g1 g2,
    R g1 g2 ->
    trace (query_loop gs1 g1 stdin) = trace (query_loop gs2 g2 stdin) /\
    iterations (query_loop gs1 g1 stdin)
    = iterations (query_loop gs2 g2 stdin) /\
    result (query_loop gs1 g1 stdin) = result (query_loop gs2 g2 stdin).
Proof.
  induction stdin as [|s rest IH]; intros g1 g2 HR; simpl; [auto|].
  destruct (iteration_alike s g1 g2 HR) as (He & Hn & Hg).
  rewrite <- Hn.
  destruct (next (iteration gs1 g1 s)); simpl.
  - destruct (IH _ _ Hg) as (Ht & Hi & Hr).
    rewrite He, Ht, Hi, Hr. auto.
  - rewrite He. auto.
Qed.

End TwoRuns.

(** C10: take two runs of the loop on the same lines of input, each with
    its own graph object, the two objects answering every search with the
    same printed lines and every lookup with the same miss or the same
    rendering, from related states onwards.  Then the two runs produce the
    same events, hence the same text on standard output, execute the loop
    body the same number of times and end the same way. *)
Theorem session_deterministic
    (gs1 gs2 : GraphStore) (R : graph gs1 -> graph gs2 -> Prop)
    (stdin : list str) (g1 : graph gs1) (g2 : graph gs2) :
  same_search gs1 gs2 R ->
  same_lookup gs1 gs2 R ->
  R g1 g2 ->
  stdout (trace (query_loop gs1 g1 stdin))
  = stdout (trace (query_loop gs2 g2 stdin)) /\
  trace (query_loop gs1 g1 stdin) = trace (query_loop gs2 g2 stdin) /\
  iterations (query_loop gs1 g1 stdin)
  = iterations (query_loop gs2 g2 stdin) /\
  result (query_loop gs1 g1 stdin) = result (query_loop gs2 g2 stdin).
Proof.
  intros Hs Hl HR.
  destruct (query_loop_alike gs1 gs2 R Hs Hl stdin g1 g2 HR) as (Ht & Hi & Hr).
  rewrite Ht. auto.
Qed.

Lemma session_deterministic_witness :
  trace (query_loop Scenario.store [Scenario.A; Scenario.B]
                    [lit "s A"; lit "A"; lit "Z"; lit "x"])
  = trace (query_loop Scenario.counting ([Scenario.A; Scenario.B], 0)
                      [lit "s A"; lit "A"; lit "Z"; lit "x"]).
Proof.
  apply (session_deterministic Scenario.store Scenario.counting
           (fun g1 g2 => g1 = fst g2)).
  - intros term g1 g2 E. simpl in *. subst g1. split; reflexivity.
  - intros name g1 g2 E. simpl in *. subst g1. split; reflexivity.
  - reflexivity.
Defined.

(** ** The scenario of the testable properties *)

(** The session [s A], [A], [Z], [x] on the two-node graph: the search
    prints [A], the first lookup prints the rendering of [A] (with [B] as
    its referrer), the second one reports that [Z] cannot be found, and
    [x] ends the loop. *)
Example scenario_session :
  main Scenario.store (lit "graph.txt") [lit "s A"; lit "A"; lit "Z"; lit "x"]
  = Session [Scenario.A; Scenario.B]
      [ Print LOADING_MSG; CallLoad (lit "graph.txt");
        Prompt; CallListNodes (lit "A") [lit "A"];
        Prompt; CallGetNode (lit "A"); Print (lit "A <- B -> ");
        Prompt; CallGetNode (lit "Z");
        Print (lit "Cannot find a node named 'Z'");
        Prompt ]
      3 Exited.
Proof. reflexivity. Qed.

(** Without an [x] the session ends when [input()] finds nothing to read. *)
Example scenario_end_of_input :
  result (main Scenario.store (lit "graph.txt") [lit "B"; lit ""]) = EOFError.
Proof. reflexivity. Qed.

(** ** Whole sessions *)

Section Sessions.

Variable gs : GraphStore.

Lemma query_loop_exit (g : graph gs) (rest : list str) :
  query_loop gs g (lit "x" :: rest) = Session g [Prompt] 0 Exited.
Proof. reflexivity. Qed.

Lemma query_loop_other (g : graph gs) (s : str) (rest : list str) :
  s <> lit "x" ->
  query_loop gs g (s :: rest) =
  Session
    (final_graph (query_loop gs (graph_after (iteration gs g s)) rest))
    (Prompt :: events (iteration gs g s)
            ++ trace (query_loop gs (graph_after (iteration gs g s)) rest))
    (S (iterations (query_loop gs (graph_after (iteration gs g s)) rest)))
    (result (query_loop gs (graph_after (iteration gs g s)) rest)).
Proof.
  intros H.
  exact (query_loop_continue gs g s rest (iteration_next_prompting gs g s H)).
Qed.

Lemma iteration_blank (g : graph gs) (s : str) :
  blank s = true -> iteration gs g s = Turn g [] Prompting.
Proof.
  intros H. apply strip_nil in H.
  rewrite iteration_dispatch.
  replace (classify s) with Empty; [reflexivity|].
  symmetry; apply classify_empty, H.
Qed.

Lemma blank_not_x (s : str) : blank s = true -> s <> lit "x".
Proof. intros H ->. discriminate H. Qed.

Lemma iteration_no_prompt (g : graph gs) (s : str) :
  count is_prompt (events (iteration gs g s)) = 0.
Proof.
  unfold iteration. loop_tests s; try reflexivity.
  - destruct (list_nodes gs (slice_from 2 s) g); reflexivity.
  - destruct (get_node gs s g) as [g' [n|]]; reflexivity.
Qed.

Lemma iteration_prints_lookups (g : graph gs) (s : str) :
  count is_print (events (iteration gs g s))
  = count is_lookup (events (iteration gs g s)).
Proof.
  unfold iteration. loop_tests s; try reflexivity.
  - destruct (list_nodes gs (slice_from 2 s) g); reflexivity.
  - destruct (get_node gs s g) as [g' [n|]]; reflexivity.
Qed.

Lemma iteration_calls (g : graph gs) (s : str) :
  count is_call (events (iteration gs g s))
  = if eqb s (lit "x") then 0 else if blank s then 0 else 1.
Proof.
  unfold iteration. loop_tests s.
  - reflexivity.
  - assert (B : blank s = false).
    { destruct (blank s) eqn:B; [|reflexivity].
      apply strip_nil in B. rewrite B in Ee. discriminate. }
    rewrite B. destruct (list_nodes gs (slice_from 2 s) g); reflexivity.
  - assert (B : blank s = false).
    { destruct (blank s) eqn:B; [|reflexivity].
      apply strip_nil in B. rewrite B in Ee. discriminate. }
    rewrite B. destruct (get_node gs s g) as [g' [n|]]; reflexivity.
  - apply strip_nil in Ee. unfold blank. rewrite Ee. reflexivity.
Qed.

Lemma eqb_x_false (s : str) : s <> lit "x" -> eqb s (lit "x") = false.
Proof. apply eqb_neq. Qed.

End Sessions.

(** X1: a session ends by the exit command exactly when some line of
    standard input is ["x"]; with no such line, however many lines there
    are, it ends with the [EOFError] of [input()]. *)
Theorem session_exits_iff_x_is_read
    (gs : GraphStore) (g : graph gs) (stdin : list str) :
  (result (query_loop gs g stdin) = Exited <-> In (lit "x") stdin) /\
  (result (query_loop gs g stdin) = EOFError <-> ~ In (lit "x") stdin).
Proof.
  revert g. induction stdin as [|s rest IH]; intros g.
  - simpl. split; split; try discriminate; try tauto.
  - destruct (eqb s (lit "x")) eqn:E.
    + apply eqb_eq in E. subst s. rewrite (query_loop_exit gs). simpl.
      split; split; try discriminate; try tauto.
    + apply eqb_neq in E. rewrite (query_loop_other gs g s rest E). simpl.
      destruct (IH (graph_after (iteration gs g s))) as [[A1 A2] [B1 B2]].
      split; split.
      * intros H. right. apply A1, H.
      * intros [H|H]; [congruence | apply A2, H].
      * intros H [K|K]; [congruence | exact (B1 H K)].
      * intros H. apply B2. intros K. apply H. right; exact K.
Qed.

Lemma session_exits_iff_x_is_read_witness :
  result (query_loop Scenario.store [Scenario.A; Scenario.B]
                     [lit "A"; lit " x"; lit "x"; lit "B"]) = Exited
  /\ result (query_loop Scenario.store [Scenario.A; Scenario.B]
                        [lit "A"; lit " x"; lit "X"]) = EOFError.
Proof.
  split.
  - apply (session_exits_iff_x_is_read Scenario.store [Scenario.A; Scenario.B]
             [lit "A"; lit " x"; lit "x"; lit "B"]).
    right; right; left; reflexivity.
  - apply (session_exits_iff_x_is_read Scenario.store [Scenario.A; Scenario.B]
             [lit "A"; lit " x"; lit "X"]).
    intros [H|[H|[H|[]]]]; discriminate H.
Defined.

(** X2: whatever follows the first ["x"] on standard input is never
    read: the session is the one of the input cut after that line. *)
Theorem input_after_exit_is_ignored
    (gs : GraphStore) (g : graph gs) (pre post : list str) :
  query_loop gs g (pre ++ lit "x" :: post)
  = query_loop gs g (pre ++ [lit "x"]).
Proof.
  revert g. induction pre as [|s pre IH]; intros g; [reflexivity|].
  simpl. destruct (next (iteration gs g s)); [|reflexivity].
  rewrite IH. reflexivity.
Qed.

(** X3: a session writes one prompt more than the loop body runs: one in
    front of every line handled and a last one, after which ["x"] is read
    or [input()] fails.  The prompt is the last event of every
    session. *)
Theorem one_prompt_per_read
    (gs : GraphStore) (g : graph gs) (stdin : list str) :
  count is_prompt (trace (query_loop gs g stdin))
  = S (iterations (query_loop gs g stdin)) /\
  exists body, trace (query_loop gs g stdin) = body ++ [Prompt].
Proof.
  revert g. induction stdin as [|s rest IH]; intros g.
  - split; [reflexivity | exists []; reflexivity].
  - destruct (eqb s (lit "x")) eqn:E.
    + apply eqb_eq in E. subst s. rewrite (query_loop_exit gs).
      split; [reflexivity | exists []; reflexivity].
    + apply eqb_neq in E. rewrite (query_loop_other gs g s rest E).
      destruct (IH (graph_after (iteration gs g s))) as [Hc [body Hb]].
      split.
      * cbn [trace iterations].
        change (S (count is_prompt
                     (events (iteration gs g s)
                      ++ trace (query_loop gs
                                  (graph_after (iteration gs g s)) rest)))
                = S (S (iterations
                          (query_loop gs
                             (graph_after (iteration gs g s)) rest)))).
        rewrite count_app, iteration_no_prompt, Hc. reflexivity.
      * exists (Prompt :: events (iteration gs g s) ++ body).
        cbn [trace]. rewrite Hb, app_comm_cons, app_assoc. reflexivity.
Qed.

Lemma before_exit_no_x (l : list str) :
  ~ In (lit "x") l -> before_exit l = l.
Proof.
  induction l as [|s l IH]; intros H; simpl; [reflexivity|].
  rewrite eqb_x_false by (intros E; apply H; left; auto).
  rewrite IH; [reflexivity | intros K; apply H; right; exact K].
Qed.

Lemma before_exit_app_x (pre post : list str) :
  ~ In (lit "x") pre -> before_exit (pre ++ lit "x" :: post) = pre.
Proof.
  induction pre as [|s l IH]; intros H; simpl; [reflexivity|].
  rewrite eqb_x_false by (intros E; apply H; left; auto).
  rewrite IH; [reflexivity | intros K; apply H; right; exact K].
Qed.

Lemma iterations_before_exit (gs : GraphStore) (stdin : list str) :
  forall g,
    iterations (query_loop gs g stdin) = List.length (before_exit stdin).
Proof.
  induction stdin as [|s rest IH]; intros g; [reflexivity|].
  simpl before_exit. destruct (eqb s (lit "x")) eqn:E.
  - apply eqb_eq in E. subst s. reflexivity.
  - apply eqb_neq in E. rewrite (query_loop_other gs g s rest E).
    cbn [iterations]. rewrite IH. reflexivity.
Qed.

(** X4: the loop body runs once for every line in front of the first
    ["x"], whatever those lines are and whatever follows the ["x"]; on an
    input without ["x"] it runs once for every line. *)
Theorem body_runs_once_per_line
    (gs : GraphStore) (g : graph gs) (pre post : list str) :
  ~ In (lit "x") pre ->
  iterations (query_loop gs g (pre ++ lit "x" :: post)) = List.length pre /\
  iterations (query_loop gs g pre) = List.length pre.
Proof.
  intros H. rewrite !iterations_before_exit.
  rewrite (before_exit_app_x pre post H), (before_exit_no_x pre H).
  split; reflexivity.
Qed.

Lemma body_runs_once_per_line_witness :
  iterations
    (query_loop Scenario.store [Scenario.A; Scenario.B]
                ([lit ""; lit "s B"; lit "xx"] ++ lit "x" :: [lit "A"])) = 3.
Proof.
  apply (body_runs_once_per_line Scenario.store [Scenario.A; Scenario.B]
           [lit ""; lit "s B"; lit "xx"] [lit "A"]).
  intros [H|[H|[H|[]]]]; discriminate H.
Defined.

Lemma trace_not_nil (gs : GraphStore) (g : graph gs) (stdin : list str) :
  trace (query_loop gs g stdin) <> [].
Proof.
  destruct (query_loop_starts_prompting gs g stdin) as [tl E].
  rewrite E; discriminate.
Qed.

(** X5: the loop composes over its input.  When no line of [l1] is
    ["x"], the session on [l1 ++ l2] is the session on [l1], less the
    prompt on which it ran out of input, followed by the session on [l2]
    started from the graph the first one leaves. *)
Theorem sessions_compose
    (gs : GraphStore) (g : graph gs) (l1 l2 : list str) :
  ~ In (lit "x") l1 ->
  query_loop gs g (l1 ++ l2) =
  Session
    (final_graph (query_loop gs (final_graph (query_loop gs g l1)) l2))
    (removelast (trace (query_loop gs g l1))
     ++ trace (query_loop gs (final_graph (query_loop gs g l1)) l2))
    (iterations (query_loop gs g l1)
     + iterations (query_loop gs (final_graph (query_loop gs g l1)) l2))
    (result (query_loop gs (final_graph (query_loop gs g l1)) l2)).
Proof.
  revert g. induction l1 as [|s l1 IH]; intros g H.
  - simpl. destruct (query_loop gs g l2); reflexivity.
  - assert (Hs : s <> lit "x") by (intros E; apply H; left; auto).
    assert (Hl : ~ In (lit "x") l1) by (intros K; apply H; right; exact K).
    rewrite <- app_comm_cons.
    rewrite (query_loop_other gs g s (l1 ++ l2) Hs).
    rewrite (query_loop_other gs g s l1 Hs).
    rewrite (IH (graph_after (iteration gs g s)) Hl).
    cbn [final_graph trace iterations result].
    assert (E : removelast
                  (Prompt :: events (iteration gs g s)
                   ++ trace (query_loop gs (graph_after (iteration gs g s))
                                        l1))
                = Prompt :: events (iteration gs g s)
                  ++ removelast
                       (trace (query_loop gs
                                 (graph_after (iteration gs g s)) l1))).
    { exact (removelast_app (Prompt :: events (iteration gs g s))
               (trace_not_nil gs (graph_after (iteration gs g s)) l1)). }
    rewrite E. rewrite <- app_comm_cons, <- app_assoc. reflexivity.
Qed.

Lemma sessions_compose_witness :
  trace (query_loop Scenario.store [Scenario.A; Scenario.B]
                    ([lit "Z"] ++ [lit "s B"; lit "x"]))
  = [Prompt; CallGetNode (lit "Z");
     Print (lit "Cannot find a node named 'Z'");
     Prompt; CallListNodes (lit "B") [lit "B"]; Prompt].
Proof.
  rewrite (sessions_compose Scenario.store [Scenario.A; Scenario.B]
             [lit "Z"] [lit "s B"; lit "x"]).
  - reflexivity.
  - intros [H|[]]; discriminate H.
Defined.

(** X6: ending the input with ["x"] changes how the session ends and
    nothing else: on lines none of which is ["x"], the session that runs
    out of input and the one that reads a final ["x"] have the same
    events, the same number of iterations and the same graph. *)
Theorem exit_changes_only_the_outcome
    (gs : GraphStore) (g : graph gs) (l : list str) :
  ~ In (lit "x") l ->
  result (query_loop gs g l) = EOFError /\
  query_loop gs g (l ++ [lit "x"]) =
  Session (final_graph (query_loop gs g l)) (trace (query_loop gs g l))
          (iterations (query_loop gs g l)) Exited.
Proof.
  revert g. induction l as [|s l IH]; intros g H.
  - split; reflexivity.
  - assert (Hs : s <> lit "x") by (intros E; apply H; left; auto).
    assert (Hl : ~ In (lit "x") l) by (intros K; apply H; right; exact K).
    destruct (IH (graph_after (iteration gs g s)) Hl) as [Hr Hq].
    rewrite <- app_comm_cons.
    rewrite (query_loop_other gs g s (l ++ [lit "x"]) Hs).
    rewrite (query_loop_other gs g s l Hs).
    rewrite Hq. cbn [final_graph trace iterations result].
    split; [exact Hr | reflexivity].
Qed.

Lemma exit_changes_only_the_outcome_witness :
  trace (query_loop Scenario.store [Scenario.A; Scenario.B]
                    ([lit "B"; lit " "] ++ [lit "x"]))
  = trace (query_loop Scenario.store [Scenario.A; Scenario.B]
                      [lit "B"; lit " "]).
Proof.
  destruct (exit_changes_only_the_outcome Scenario.store
              [Scenario.A; Scenario.B] [lit "B"; lit " "]) as [_ H].
  - intros [K|[K|[]]]; discriminate K.
  - rewrite H; reflexivity.
Defined.

(** X7: a session queries the graph once for every line in front of the
    first ["x"] that is not blank, and not otherwise: blank lines, the
    ["x"] and whatever follows it cause no call. *)
Theorem one_query_per_nonblank_line
    (gs : GraphStore) (g : graph gs) (stdin : list str) :
  count is_call (trace (query_loop gs g stdin))
  = List.length (filter (fun s => negb (blank s)) (before_exit stdin)).
Proof.
  revert g. induction stdin as [|s rest IH]; intros g; [reflexivity|].
  pose proof (iteration_calls gs g s) as Hc.
  simpl before_exit. destruct (eqb s (lit "x")) eqn:E.
  - apply eqb_eq in E. subst s. reflexivity.
  - apply eqb_neq in E. rewrite (query_loop_other gs g s rest E).
    cbn [trace].
    change (count is_call
              (events (iteration gs g s)
               ++ trace (query_loop gs (graph_after (iteration gs g s)) rest))
            = List.length
                (filter (fun s => negb (blank s)) (s :: before_exit rest))).
    rewrite count_app, Hc, IH. simpl filter.
    destruct (blank s); reflexivity.
Qed.

Lemma answered_turn
    (gs : GraphStore) (g : graph gs) (s : str) (tl : list event) :
  answered gs (graph_after (iteration gs g s)) tl ->
  answered gs g (events (iteration gs g s) ++ tl).
Proof.
  unfold iteration. loop_tests s.
  - intros H; exact H.
  - destruct (list_nodes gs (slice_from 2 s) g) as [g' printed] eqn:E.
    intros H. cbn [events graph_after app] in *.
    cbn [answered]. rewrite E. split; [reflexivity | exact H].
  - destruct (get_node gs s g) as [g' [n|]] eqn:E;
      intros H; cbn [events graph_after app] in *;
      cbn [answered]; rewrite E; (split; [reflexivity | exact H]).
  - intros H; exact H.
Qed.

(** X8: the loop itself prints one line for every lookup it makes, and
    nothing else.  In a session every call of [get_node] is followed at
    once by one print, of the [repr] of the node the call returned or of
    the not-found message for the name asked; no other print occurs
    (searches and blank lines add none), so there are as many prints as
    lookups. *)
Theorem one_print_per_lookup
    (gs : GraphStore) (g : graph gs) (stdin : list str) :
  answered gs g (trace (query_loop gs g stdin)) /\
  count is_print (trace (query_loop gs g stdin))
  = count is_lookup (trace (query_loop gs g stdin)).
Proof.
  revert g. induction stdin as [|s rest IH]; intros g.
  - split; [exact I | reflexivity].
  - destruct (eqb s (lit "x")) eqn:E.
    + apply eqb_eq in E. subst s. split; [exact I | reflexivity].
    + apply eqb_neq in E. rewrite (query_loop_other gs g s rest E).
      cbn [trace].
      destruct (IH (graph_after (iteration gs g s))) as [Ha Hc].
      split.
      * cbn [answered]. apply answered_turn, Ha.
      * change (count is_print
                  (events (iteration gs g s)
                   ++ trace (query_loop gs (graph_after (iteration gs g s))
                                        rest))
                = count is_lookup
                    (events (iteration gs g s)
                     ++ trace (query_loop gs
                                 (graph_after (iteration gs g s)) rest))).
        rewrite !count_app, iteration_prints_lookups, Hc. reflexivity.
Qed.

(** A trace in which the line printed is not the answer to the lookup in
    front of it is not a trace of the loop. *)
Example wrong_print_is_not_answered :
  ~ answered Scenario.store [Scenario.A; Scenario.B]
      [Prompt; CallGetNode (lit "Z"); Print (lit "A <- B -> "); Prompt].
Proof. intros [H _]. discriminate H. Qed.

(** X9: the message printed on a failed lookup determines the line that
    was looked up: two lines with the same message are the same line. *)
Theorem not_found_msg_injective (a b : str) :
  not_found_msg a = not_found_msg b -> a = b.
Proof.
  unfold not_found_msg. intros H.
  apply app_inv_head in H. apply app_inv_tail in H. exact H.
Qed.

Lemma not_found_msg_injective_witness :
  lit " A" <> lit "A" /\ not_found_msg (lit " A") <> not_found_msg (lit "A").
Proof.
  split; [discriminate|].
  intros H. apply not_found_msg_injective in H. discriminate H.
Defined.

(** X10: when the two queries leave the graph as they find it, a session
    has no memory: what a line calls and prints is what it would call and
    print as the first line, so the trace is the lines in front of the
    first ["x"] handled one by one on the graph the loop started with,
    each behind its prompt, and a last prompt. *)
Theorem read_only_session_has_no_memory
    (gs : GraphStore) (g : graph gs) (stdin : list str) :
  read_only gs ->
  trace (query_loop gs g stdin)
  = flat_map (fun s => Prompt :: events (iteration gs g s))
             (before_exit stdin)
    ++ [Prompt].
Proof.
  intros RO. revert g. induction stdin as [|s rest IH]; intros g.
  - reflexivity.
  - simpl before_exit. destruct (eqb s (lit "x")) eqn:E.
    + apply eqb_eq in E. subst s. reflexivity.
    + apply eqb_neq in E. rewrite (query_loop_other gs g s rest E).
      cbn [trace]. rewrite (iteration_frame gs g s RO), IH.
      simpl flat_map. rewrite <- app_comm_cons, <- app_assoc. reflexivity.
Qed.

Lemma read_only_session_has_no_memory_witness :
  trace (query_loop Scenario.store [Scenario.A; Scenario.B]
                    [lit "B"; lit "s"; lit "x"; lit "A"])
  = [Prompt; CallGetNode (lit "B"); Print (lit "B <-  -> A");
     Prompt; CallGetNode (lit "s");
     Print (lit "Cannot find a node named 's'");
     Prompt].
Proof.
  rewrite (read_only_session_has_no_memory Scenario.store
             [Scenario.A; Scenario.B] [lit "B"; lit "s"; lit "x"; lit "A"]
             scenario_read_only).
  reflexivity.
Defined.

(** The counting store shows the hypothesis at work: its answers stay the
    same, yet its state after a session depends on how many queries came
    before. *)
Example counting_session_has_memory :
  snd (final_graph
         (query_loop Scenario.counting ([Scenario.A; Scenario.B], 0)
                     [lit "A"; lit "s A"; lit " "; lit "x"])) = 2.
Proof. reflexivity. Qed.

(** X11: blank lines are idle.  Taking them out of standard input changes
    the number of prompts and nothing else: the calls on the graph and the
    prints, in their order, the graph and the way the session ends are the
    same. *)
Theorem blank_lines_are_idle
    (gs : GraphStore) (g : graph gs) (stdin : list str) :
  unprompted (trace (query_loop gs g stdin))
  = unprompted
      (trace (query_loop gs g (filter (fun s => negb (blank s)) stdin))) /\
  final_graph (query_loop gs g stdin)
  = final_graph (query_loop gs g (filter (fun s => negb (blank s)) stdin)) /\
  result (query_loop gs g stdin)
  = result (query_loop gs g (filter (fun s => negb (blank s)) stdin)).
Proof.
  revert g. induction stdin as [|s rest IH]; intros g.
  - repeat split.
  - simpl filter. destruct (blank s) eqn:B; simpl negb.
    + rewrite (query_loop_other gs g s rest (blank_not_x s B)).
      rewrite (iteration_blank gs g s B). cbn [events graph_after].
      cbn [trace final_graph result]. simpl app.
      destruct (IH g) as (Ht & Hg & Hr).
      repeat split; assumption.
    + destruct (eqb s (lit "x")) eqn:E.
      * apply eqb_eq in E. subst s. rewrite !query_loop_exit.
        repeat split.
      * apply eqb_neq in E.
        rewrite !(query_loop_other gs g s _ E).
        cbn [trace final_graph result].
        destruct (IH (graph_after (iteration gs g s))) as (Ht & Hg & Hr).
        repeat split; try assumption.
        unfold unprompted in *. simpl filter.
        rewrite !filter_app, Ht. reflexivity.
Qed.

Lemma iteration_lookup_event
    (gs : GraphStore) (g : graph gs) (s name : str) :
  In (CallGetNode name) (events (iteration gs g s)) ->
  name = s /\ classify s = Lookup s.
Proof.
  intros H. rewrite iteration_dispatch in H.
  destruct (classify s) as [| |term|key] eqn:C; simpl in H.
  - contradiction.
  - contradiction.
  - destruct (list_nodes gs term g); simpl in H.
    destruct H as [H|[]]; discriminate H.
  - assert (K : key = s) by (apply classify_lookup in C; tauto).
    subst key. split; [|reflexivity].
    destruct (get_node gs s g) as [g' [n|]]; simpl in H;
      destruct H as [H|[H|[]]]; congruence.
Qed.

Lemma iteration_search_event
    (gs : GraphStore) (g : graph gs) (s term : str) (printed : list str) :
  In (CallListNodes term printed) (events (iteration gs g s)) ->
  s = lit "s " ++ term.
Proof.
  intros H. rewrite iteration_dispatch in H.
  destruct (classify s) as [| |term'|key] eqn:C; simpl in H.
  - contradiction.
  - contradiction.
  - apply classify_search in C. destruct C as [C ->].
    destruct (list_nodes gs (slice_from 2 s) g); simpl in H.
    destruct H as [H|[]]. inversion H; subst.
    apply search_prefix_inv, C.
  - destruct (get_node gs key g) as [g' [n|]]; simpl in H;
      destruct H as [H|[H|[]]]; discriminate H.
Qed.

(** X12: every call on the graph comes from a line of standard input.
    [get_node] is only ever asked for a whole line that was typed, and
    never for ["x"], for a blank name or for a name that begins with
    ["s "]: nodes with such names cannot be looked up.  [list_nodes] is
    only ever asked for what followed ["s "] on a line that was typed. *)
Theorem calls_come_from_input
    (gs : GraphStore) (g : graph gs) (stdin : list str) :
  (forall name,
     In (CallGetNode name) (trace (query_loop gs g stdin)) ->
     In name stdin /\ name <> lit "x" /\ blank name = false /\
     startswith name (lit "s ") = false) /\
  (forall term printed,
     In (CallListNodes term printed) (trace (query_loop gs g stdin)) ->
     In (lit "s " ++ term) stdin).
Proof.
  revert g. induction stdin as [|s rest IH]; intros g.
  - split; intros; simpl in *; destruct H as [H|[]]; discriminate H.
  - destruct (eqb s (lit "x")) eqn:E.
    + apply eqb_eq in E. subst s. rewrite query_loop_exit.
      split; intros; simpl in *; destruct H as [H|[]]; discriminate H.
    + apply eqb_neq in E. rewrite (query_loop_other gs g s rest E).
      cbn [trace].
      destruct (IH (graph_after (iteration gs g s))) as [IHl IHs].
      split.
      * intros name [H|H]; [discriminate H|].
        apply in_app_or in H. destruct H as [H|H].
        -- apply iteration_lookup_event in H. destruct H as [-> C].
           apply classify_lookup in C. destruct C as (Cx & Ce & Cs & _).
           split; [left; reflexivity|].
           split; [exact Cx|]. split; [|exact Cs].
           destruct (blank s) eqn:B; [|reflexivity].
           apply strip_nil in B. contradiction.
        -- destruct (IHl name H) as (H1 & H2). split; [right; exact H1|].
           exact H2.
      * intros term printed [H|H]; [discriminate H|].
        apply in_app_or in H. destruct H as [H|H].
        -- apply iteration_search_event in H. left. exact H.
        -- right. apply (IHs term printed H).
Qed.

Lemma calls_come_from_input_witness :
  ~ In (CallGetNode (lit "s A"))
       (trace (query_loop Scenario.store [Scenario.A; Scenario.B]
                          [lit "s A"; lit "A"; lit "x"])).
Proof.
  intros H.
  apply (calls_come_from_input Scenario.store [Scenario.A; Scenario.B]
           [lit "s A"; lit "A"; lit "x"]) in H.
  destruct H as (_ & _ & _ & H). discriminate H.
Defined.
